(** * In-memory user repository, service layer and logger pipeline

    A shallow embedding of the Go practice program (repository, service,
    asynchronous logger) and of the integer arithmetic of [Basics.go].

    Conventions of the embedding:
    - Go's [int] is a 64-bit two's complement integer; values are carried as
      [Z] and every arithmetic result is reduced by [GoInt.wrap].
    - A method with a pointer receiver becomes a function from the receiver's
      state to the new state and the returned values.  Each repository method
      runs under [r.mu] from its first to its last statement, so one call is
      one atomic transition of the state.
    - Go's [(User, error)] results are pairs whose second component is
      [None] for a nil error.
    - The clock reading of [time.Now()] and the iteration order of a
      [range] over a map are choices of the runtime; they are arguments of
      the functions that depend on them. *)

From stdpp Require Import base relations gmap list strings pretty sorting.
From Stdlib Require Import ZArith Lia.

Local Open Scope Z_scope.

(** ** Fixed-width integers *)

Module GoInt.

(** Two's complement reduction of [z] to [w] bits. *)
Definition wrap (w : Z) (z : Z) : Z :=
  (z + 2 ^ (w - 1)) mod 2 ^ w - 2 ^ (w - 1).

Definition int_bits : Z := 64.
Definition max_int : Z := 2 ^ (int_bits - 1) - 1.
Definition min_int : Z := - 2 ^ (int_bits - 1).

(** [int] arithmetic. *)
Definition int_add (a b : Z) : Z := wrap int_bits (a + b).

(** [int16] arithmetic. *)
Definition int16_add (a b : Z) : Z := wrap 16 (a + b).
Definition int16_sub (a b : Z) : Z := wrap 16 (a - b).

End GoInt.

(** ** Data model *)

(** An instant of [time.Time]; the zero value is [zeroTime]. *)
Definition Time : Type := Z.
Definition zeroTime : Time := 0.

Record User : Type := mkUser {
  ID : Z;
  Name : string;
  Email : string;
  CreatedAt : Time
}.

#[global] Instance User_eq_dec : EqDecision User.
Proof. solve_decision. Defined.

(** [User{}] *)
Definition zeroUser : User :=
  {| ID := 0; Name := ""; Email := ""; CreatedAt := zeroTime |}.

(** Non-nil values of Go's [error].  Errors made by [errors.New] are told
    apart by their message, which is enough here: the program makes two,
    with different messages. *)
Inductive error_value : Type :=
  | errors_New (msg : string)
  | context_Canceled
  | context_DeadlineExceeded.

#[global] Instance error_value_eq_dec : EqDecision error_value.
Proof. solve_decision. Defined.

(** Go's [error]: [None] is nil. *)
Definition error : Type := option error_value.

Definition ErrUserNotFound : error_value := errors_New "user not found".

(** ** The repository interface *)

Class UserRepository (R : Type) : Type := {
  Create : Time → User → R → R * (User * error);
  GetByID : Z → R → R * (User * error);
  List : list Z → R → R * list User
}.

(** ** In-memory repository *)

Record InMemoryUserRepo : Type := mkRepo {
  users : gmap Z User;
  nextID : Z
}.

Definition NewInMemoryUserRepo : InMemoryUserRepo :=
  {| users := ∅; nextID := 1 |}.

Module InMemory.

(** [now] is the value of [time.Now()] read by this call. *)
Definition Create (now : Time) (user : User) (r : InMemoryUserRepo)
  : InMemoryUserRepo * (User * error) :=
  let user := {| ID := nextID r; Name := Name user; Email := Email user;
                 CreatedAt := CreatedAt user |} in
  let user := {| ID := ID user; Name := Name user; Email := Email user;
                 CreatedAt := now |} in
  let r := {| users := <[ID user := user]> (users r); nextID := nextID r |} in
  let r := {| users := users r; nextID := GoInt.int_add (nextID r) 1 |} in
  (r, (user, None)).

Definition GetByID (id : Z) (r : InMemoryUserRepo)
  : InMemoryUserRepo * (User * error) :=
  match users r !! id with
  | None => (r, (zeroUser, Some ErrUserNotFound))
  | Some user => (r, (user, None))
  end.

(** The loop [for _, u := range r.users { result = append(result, u) }],
    visiting the keys in the order [order] chosen by the runtime. *)
Definition range_append (m : gmap Z User) (order : list Z) : list User :=
  foldl (λ result k,
           match m !! k with
           | Some u => result ++ [u]
           | None => result
           end) [] order.

Definition List (order : list Z) (r : InMemoryUserRepo)
  : InMemoryUserRepo * list User :=
  (r, range_append (users r) order).

(** [order] is an iteration order the runtime may choose for [m]: every
    key of [m] once. *)
Definition iteration_order (m : gmap Z User) (order : list Z) : Prop :=
  order ≡ₚ (map_to_list m).*1.

End InMemory.

#[global] Instance InMemoryUserRepo_UserRepository
  : UserRepository InMemoryUserRepo :=
  {| Create := InMemory.Create;
     GetByID := InMemory.GetByID;
     List := InMemory.List |}.

(** ** Contexts

    The two methods of [context.Context] that the service uses, as they
    answer at the instant of the call: [Done ctx] tells whether the channel
    [ctx.Done()] is closed (a receive from it succeeds at once), [Err ctx]
    is the value of [ctx.Err()]. *)

Record Context : Type := mkContext {
  Done : bool;
  Err : error
}.

(** A context that is neither cancelled nor expired, such as
    [context.Background()] or a [WithTimeout] child before its deadline. *)
Definition context_live : Context := {| Done := false; Err := None |}.

(** A context whose [cancel] function has been called. *)
Definition context_canceled : Context :=
  {| Done := true; Err := Some context_Canceled |}.

(** A context whose deadline has passed. *)
Definition context_expired : Context :=
  {| Done := true; Err := Some context_DeadlineExceeded |}.

(** ** Service layer

    [UserService] holds nothing but a reference to its repository, so a
    service method is a transition of the repository's state. *)

Definition ErrValidation : error_value :=
  errors_New "name or email cannot be empty".

(** A call of one of the five operations by a client. *)
Inductive Call : Type :=
  | CallCreate (now : Time) (user : User)
  | CallGetByID (id : Z)
  | CallList (order : list Z)
  | CallRegisterUser (now : Time) (name email : string)
  | CallGetUser (ctx : Context) (id : Z).

Section Service.
Context {R : Type} `{!UserRepository R}.

Definition RegisterUser (now : Time) (name email : string) (s : R)
  : R * (User * error) :=
  if bool_decide (name = "") || bool_decide (email = "") then
    (s, (zeroUser, Some ErrValidation))
  else
    let user := {| ID := 0; Name := name; Email := email;
                   CreatedAt := zeroTime |} in
    Create now user s.

(** The [select] takes its first case when [ctx.Done()] is closed and the
    [default] case otherwise. *)
Definition GetUser (ctx : Context) (id : Z) (s : R) : R * (User * error) :=
  if Done ctx then (s, (zeroUser, Err ctx))
  else GetByID id s.

(** The state a call leaves behind. *)
Definition call (c : Call) (s : R) : R :=
  match c with
  | CallCreate now user => (Create now user s).1
  | CallGetByID id => (GetByID id s).1
  | CallList order => (List order s).1
  | CallRegisterUser now name email => (RegisterUser now name email s).1
  | CallGetUser ctx id => (GetUser ctx id s).1
  end.

Definition calls (cs : list Call) (s : R) : R :=
  foldl (λ s c, call c s) s cs.

(** Successive [RegisterUser] calls, with the clock reading of each, and
    what each returned. *)
Fixpoint register_all (reqs : list (Time * string * string)) (s : R)
  : R * list (User * error) :=
  match reqs with
  | [] => (s, [])
  | (now, name, email) :: reqs =>
      let '(s, res) := RegisterUser now name email s in
      let '(s, ress) := register_all reqs s in
      (s, res :: ress)
  end.

(** Successive [Create] calls. *)
Fixpoint create_all (reqs : list (Time * User)) (s : R)
  : R * list (User * error) :=
  match reqs with
  | [] => (s, [])
  | (now, user) :: reqs =>
      let '(s, res) := Create now user s in
      let '(s, ress) := create_all reqs s in
      (s, res :: ress)
  end.

End Service.

(** ** A repository that records the calls it receives

    Instrumentation for the statements about which repository methods a
    service call reaches: it forwards every call to the repository it wraps
    and appends the call to a journal. *)

Inductive RepoCall : Type :=
  | CalledCreate (user : User)
  | CalledGetByID (id : Z)
  | CalledList.

Record Recording (R : Type) : Type := mkRecording {
  inner : R;
  journal : list RepoCall
}.
Arguments mkRecording {R} _ _.
Arguments inner {R} _.
Arguments journal {R} _.

#[global] Instance Recording_UserRepository {R : Type} `{!UserRepository R}
  : UserRepository (Recording R) :=
  {| Create now user t :=
       let '(r, res) := Create now user (inner t) in
       ({| inner := r; journal := journal t ++ [CalledCreate user] |}, res);
     GetByID id t :=
       let '(r, res) := GetByID id (inner t) in
       ({| inner := r; journal := journal t ++ [CalledGetByID id] |}, res);
     List order t :=
       let '(r, res) := List order (inner t) in
       ({| inner := r; journal := journal t ++ [CalledList] |}, res) |}.

(** ** Utility functions *)

Definition Sum (nums : list Z) : Z :=
  foldl (λ total n, GoInt.int_add total n) 0 nums.

(** ** The logger goroutine and its driver

    The part of [main] that deals with the logger, and [asyncLogger], as two
    threads of control that take their steps in any interleaving.

    [logChannel] is unbuffered: a send completes only together with a
    receive, so the hand-off of a message is one step of both threads.  The
    state [init msgs] is the one reached after [wg.Add(1)] and the [go]
    statement, with the driver about to send [msgs] one after the other. *)

Module Logger.

(** Where [main] stands. *)
Inductive MainPC : Type :=
  | MLoop (pending : list string)  (* in the loop, these sends still to do *)
  | MClose                         (* before [close(logChannel)] *)
  | MWait                          (* at [wg.Wait()] *)
  | MExit.                         (* [wg.Wait()] has returned *)

(** Where [asyncLogger] stands. *)
Inductive LoggerPC : Type :=
  | LRecv                          (* at the receive of [range ch] *)
  | LPrint (msg : string)          (* in the loop body, holding [msg] *)
  | LDeferred                      (* loop left, [wg.Done()] still to run *)
  | LDone.                         (* returned *)

#[global] Instance MainPC_eq_dec : EqDecision MainPC.
Proof. solve_decision. Defined.

#[global] Instance LoggerPC_eq_dec : EqDecision LoggerPC.
Proof. solve_decision. Defined.

Record State : Type := mkState {
  main_pc : MainPC;
  logger_pc : LoggerPC;
  closed : bool;                   (* [logChannel] has been closed *)
  wg : Z;                          (* counter of the [WaitGroup] *)
  output : list string             (* lines printed by [log.Println] *)
}.

(** What [log.Println("ASYNC LOG:", msg)] prints, without the time stamp
    that the [log] package puts in front. *)
Definition line (msg : string) : string := "ASYNC LOG: " +:+ msg.

Definition init (msgs : list string) : State :=
  {| main_pc := MLoop msgs; logger_pc := LRecv; closed := false; wg := 1;
     output := [] |}.

(** One step of [main]; [None] when it is blocked or has finished.  A send
    waits for the logger to be at its receive.  (A send on a closed channel
    would panic; the driver closes the channel after its last send.) *)
Definition main_step (s : State) : option State :=
  match main_pc s with
  | MLoop (msg :: pending) =>
      match logger_pc s with
      | LRecv =>
          if closed s then None
          else Some {| main_pc := MLoop pending; logger_pc := LPrint msg;
                       closed := closed s; wg := wg s; output := output s |}
      | _ => None
      end
  | MLoop [] =>
      Some {| main_pc := MClose; logger_pc := logger_pc s;
              closed := closed s; wg := wg s; output := output s |}
  | MClose =>
      Some {| main_pc := MWait; logger_pc := logger_pc s;
              closed := true; wg := wg s; output := output s |}
  | MWait =>
      if bool_decide (wg s = 0) then
        Some {| main_pc := MExit; logger_pc := logger_pc s;
                closed := closed s; wg := wg s; output := output s |}
      else None
  | MExit => None
  end.

(** One step of [asyncLogger] on its own; [None] when it is blocked at the
    receive of an open channel or has returned. *)
Definition logger_step (s : State) : option State :=
  match logger_pc s with
  | LRecv =>
      if closed s then
        Some {| main_pc := main_pc s; logger_pc := LDeferred;
                closed := closed s; wg := wg s; output := output s |}
      else None
  | LPrint msg =>
      Some {| main_pc := main_pc s; logger_pc := LRecv;
              closed := closed s; wg := wg s;
              output := output s ++ [line msg] |}
  | LDeferred =>
      Some {| main_pc := main_pc s; logger_pc := LDone;
              closed := closed s; wg := wg s - 1; output := output s |}
  | LDone => None
  end.

(** The scheduler picks either thread. *)
Definition step (s s' : State) : Prop :=
  main_step s = Some s' ∨ logger_step s = Some s'.

(** A run under a given schedule; [None] if the schedule picks a thread
    that cannot step. *)
Inductive Thread : Type := ThMain | ThLogger.

Definition thread_step (th : Thread) (s : State) : option State :=
  match th with
  | ThMain => main_step s
  | ThLogger => logger_step s
  end.

Fixpoint run (schedule : list Thread) (s : State) : option State :=
  match schedule with
  | [] => Some s
  | th :: schedule =>
      match thread_step th s with
      | Some s' => run schedule s'
      | None => None
      end
  end.

(** Messages handed to the logger and not printed yet. *)
Definition in_hand (s : State) : list string :=
  match logger_pc s with LPrint msg => [msg] | _ => [] end.

(** Messages still to be sent. *)
Definition unsent (s : State) : list string :=
  match main_pc s with MLoop pending => pending | _ => [] end.

(** The number of steps still possible is at most [fuel s]. *)
Definition fuel (s : State) : nat :=
  (match main_pc s with
   | MLoop pending => 3 + 2 * length pending
   | MClose => 2
   | MWait => 1
   | MExit => 0
   end +
   match logger_pc s with
   | LPrint _ => 3
   | LRecv => 2
   | LDeferred => 1
   | LDone => 0
   end)%nat.

(** What holds of the two threads together in every state they reach
    from [init msgs]: every message is printed, in the logger's hand or
    still to be sent, in the order of [msgs]; the channel is closed once
    [main] is past [close]; the [WaitGroup] counts the logger until it has
    returned; the logger leaves its loop only on a closed channel; [main]
    gets past [wg.Wait()] only after the logger has returned. *)
Definition coherent (msgs : list string) (s : State) : Prop :=
  line <$> msgs = output s ++ (line <$> (in_hand s ++ unsent s)) ∧
  closed s = match main_pc s with MWait | MExit => true | _ => false end ∧
  wg s = match logger_pc s with LDone => 0 | _ => 1 end ∧
  match logger_pc s with
  | LDeferred | LDone => closed s = true
  | _ => True
  end ∧
  match main_pc s with
  | MExit => logger_pc s = LDone
  | _ => True
  end.

(** A schedule for three messages in which the logger prints every message
    before [main] goes on. *)
Definition eager_schedule : list Thread :=
  [ThMain; ThLogger; ThMain; ThLogger; ThMain; ThLogger;
   ThMain; ThMain; ThLogger; ThLogger; ThMain].

(** The state in which both threads have finished after printing [msgs]. *)
Definition finished (msgs : list string) : State :=
  {| main_pc := MExit; logger_pc := LDone; closed := true; wg := 0;
     output := line <$> msgs |}.

End Logger.

(** ** [Basics.go] *)

Module Basics.

(** [fmt.Println] of integers: operands in decimal, separated by a space,
    followed by a newline. *)
Definition newline : string := String (Ascii.ascii_of_nat 10) EmptyString.

Definition Println (operands : list Z) : string :=
  String.concat " " (pretty <$> operands) +:+ newline.

(** [var Y int16 = 32767] *)
Definition Y : Z := 32767.

(** [fmt.Println(Y+2, Y-2)] *)
Definition main_line18 : string :=
  Println [GoInt.int16_add Y 2; GoInt.int16_sub Y 2].

End Basics.

(** ** Invariants of the in-memory repository *)

(** Every record is stored under its own identifier. *)
Definition keyed (r : InMemoryUserRepo) : Prop :=
  ∀ k u, users r !! k = Some u → ID u = k.

(** [issued n r]: the repository has handed out the identifiers [1..n],
    holds one record for each of them, and its counter has not wrapped. *)
Definition issued (n : Z) (r : InMemoryUserRepo) : Prop :=
  0 ≤ n ≤ GoInt.max_int ∧
  nextID r = GoInt.int_add n 1 ∧
  (∀ k, is_Some (users r !! k) ↔ 1 ≤ k ≤ n) ∧
  size (users r) = Z.to_nat n.

(** A request that passes the validation of [RegisterUser]. *)
Definition valid_request (req : Time * string * string) : Prop :=
  req.1.2 ≠ "" ∧ req.2 ≠ "".

(** The two registrations of [main], with a clock reading for each. *)
Definition main_requests : list (Time * string * string) :=
  [(100, "Gaurav", "gaurav@example.com"); (200, "Amit", "amit@example.com")].

(** Two [Create] calls, the second with an identifier and a creation time
    already filled in. *)
Definition two_creates : list (Time * User) :=
  [(100, {| ID := 0; Name := "Gaurav"; Email := "gaurav@example.com";
            CreatedAt := zeroTime |});
   (200, {| ID := 7; Name := "Amit"; Email := "amit@example.com";
            CreatedAt := 50 |})].

(** Calls of a client: a registration, then one call of every operation. *)
Definition calls_before : list Call :=
  [CallRegisterUser 100 "Gaurav" "gaurav@example.com"].

Definition calls_after : list Call :=
  [CallRegisterUser 200 "Amit" "amit@example.com";
   CallCreate 300 {| ID := 1; Name := "Eve"; Email := "eve@example.com";
                     CreatedAt := 1 |};
   CallRegisterUser 400 "" "nobody@example.com";
   CallGetUser context_live 1;
   CallGetByID 9;
   CallList [3; 1; 2]].

(** The identifiers of a list of results. *)
Definition result_ids (results : list (User * error)) : list Z :=
  (λ res, ID res.1) <$> results.

(** ** The registration loop of [main]

    The loop [for _, u := range users] of [main]: a failed registration is
    logged and the loop goes on; a successful one is reported on
    [logChannel].  [Sprintf_user user] stands for
    [fmt.Sprintf("User created: %+v", user)]; [now] is the clock reading of
    each round. *)

Inductive LoopEvent : Type :=
  | LoggedError (err : error_value)    (* [log.Println("Error:", err)] *)
  | Sent (msg : string).               (* [logChannel <- msg] *)

Fixpoint register_loop {R : Type} `{!UserRepository R}
    (Sprintf_user : User → string)
    (us : list (Time * string * string)) (s : R) : R * list LoopEvent :=
  match us with
  | [] => (s, [])
  | (now, name, email) :: us =>
      let '(s, (user, err)) := RegisterUser now name email s in
      match err with
      | Some e =>
          let '(s, evs) := register_loop Sprintf_user us s in
          (s, LoggedError e :: evs)
      | None =>
          let '(s, evs) := register_loop Sprintf_user us s in
          (s, Sent (Sprintf_user user) :: evs)
      end
  end.

Definition sent_messages (evs : list LoopEvent) : list string :=
  omap (λ ev, match ev with Sent msg => Some msg | LoggedError _ => None end)
       evs.

Definition logged_errors (evs : list LoopEvent) : list error_value :=
  omap (λ ev, match ev with LoggedError e => Some e | Sent _ => None end)
       evs.

#[global] Instance valid_request_dec req : Decision (valid_request req).
Proof. unfold valid_request. apply _. Defined.

(** The record stored for an accepted request that is given [id]. *)
Definition registered (id : Z) (req : Time * string * string) : User :=
  {| ID := id; Name := req.1.2; Email := req.2; CreatedAt := req.1.1 |}.

(** The sum of [nums] in the integers, without wrap-around. *)
Definition total (nums : list Z) : Z := foldr Z.add 0 nums.

(** Requests of which the second and the third are refused. *)
Definition mixed_requests : list (Time * string * string) :=
  [(100, "Gaurav", "gaurav@example.com"); (150, "", "x@example.com");
   (170, "x", ""); (200, "Amit", "amit@example.com")].

(** ** Facts about fixed-width arithmetic *)

Lemma wrap_small w z :
  0 < w → - 2 ^ (w - 1) ≤ z < 2 ^ (w - 1) → GoInt.wrap w z = z.
Proof.
  intros Hw Hz. unfold GoInt.wrap.
  assert (2 ^ w = 2 * 2 ^ (w - 1)) as ->.
  { rewrite <- Z.pow_succ_r by lia. f_equal. lia. }
  rewrite Z.mod_small; lia.
Qed.

Lemma int_add_small a b :
  GoInt.min_int ≤ a + b ≤ GoInt.max_int → GoInt.int_add a b = a + b.
Proof.
  intros H. unfold GoInt.int_add. apply wrap_small; [done|].
  unfold GoInt.min_int, GoInt.max_int in H. lia.
Qed.

Lemma max_int_pos : 0 < GoInt.max_int.
Proof. done. Qed.

Lemma min_int_neg : GoInt.min_int < 0.
Proof. done. Qed.

(** ** The repository's invariants are kept *)

Lemma keyed_fresh : keyed NewInMemoryUserRepo.
Proof. intros k u. cbn. by rewrite lookup_empty. Qed.

Lemma keyed_Create now user r :
  keyed r → keyed (InMemory.Create now user r).1.
Proof.
  intros Hk k u. cbn. rewrite lookup_insert.
  case_decide as Hd; [|by apply Hk].
  intros [= <-]. by cbn.
Qed.

Lemma issued_fresh : issued 0 NewInMemoryUserRepo.
Proof.
  split; [pose proof max_int_pos; lia|].
  split; [done|]. split; [|done].
  intros k. cbn. rewrite lookup_empty. split; [by intros [? ?]|lia].
Qed.

Lemma issued_nextID n r :
  issued n r → n < GoInt.max_int → nextID r = n + 1.
Proof.
  intros (Hn & Hnext & _) Hlt. rewrite Hnext. apply int_add_small.
  pose proof min_int_neg. lia.
Qed.

Lemma issued_lookup_nextID n r :
  issued n r → n < GoInt.max_int → users r !! nextID r = None.
Proof.
  intros Hi Hlt. rewrite (issued_nextID n r Hi Hlt).
  destruct Hi as (_ & _ & Hdom & _).
  apply eq_None_not_Some. rewrite Hdom. lia.
Qed.

Lemma Create_result now user r :
  InMemory.Create now user r =
    ({| users := <[nextID r :=
                     {| ID := nextID r; Name := Name user;
                        Email := Email user; CreatedAt := now |}]> (users r);
        nextID := GoInt.int_add (nextID r) 1 |},
     ({| ID := nextID r; Name := Name user; Email := Email user;
         CreatedAt := now |}, None)).
Proof. reflexivity. Qed.

Lemma Create_nil_error now user r :
  (InMemory.Create now user r).2.2 = None.
Proof. reflexivity. Qed.

Lemma issued_Create n now user r :
  issued n r → n < GoInt.max_int →
  issued (n + 1) (InMemory.Create now user r).1.
Proof.
  intros Hi Hlt.
  pose proof (issued_nextID n r Hi Hlt) as Hnext.
  pose proof (issued_lookup_nextID n r Hi Hlt) as Hfree.
  destruct Hi as (Hn & _ & Hdom & Hsize).
  rewrite Create_result. unfold issued. cbn [fst users nextID].
  split; [lia|]. split; [by rewrite Hnext|]. split.
  - intros k. rewrite lookup_insert. case_decide as Hd.
    + split; [lia|by eexists].
    + rewrite Hdom. lia.
  - rewrite map_size_insert_None by done. rewrite Hsize. lia.
Qed.

Lemma Create_keeps now user r n k u :
  issued n r → n < GoInt.max_int →
  users r !! k = Some u → users (InMemory.Create now user r).1 !! k = Some u.
Proof.
  intros Hi Hlt Hk.
  pose proof (issued_lookup_nextID n r Hi Hlt) as Hfree.
  rewrite Create_result. cbn [fst users].
  rewrite lookup_insert_ne; [done|]. congruence.
Qed.

(** ** Service layer on the in-memory repository *)

Lemma RegisterUser_valid {R : Type} `{!UserRepository R}
    now name email (s : R) :
  name ≠ "" → email ≠ "" →
  RegisterUser now name email s =
    Create now {| ID := 0; Name := name; Email := email;
                  CreatedAt := zeroTime |} s.
Proof.
  intros Hn He. unfold RegisterUser.
  by rewrite !bool_decide_eq_false_2.
Qed.

Lemma RegisterUser_invalid {R : Type} `{!UserRepository R}
    now name email (s : R) :
  name = "" ∨ email = "" →
  RegisterUser now name email s = (s, (zeroUser, Some ErrValidation)).
Proof.
  intros Hor. unfold RegisterUser.
  destruct Hor as [-> | ->]; [done|].
  by destruct (bool_decide (name = "")).
Qed.

Lemma register_all_issued reqs : ∀ n (r : InMemoryUserRepo),
  issued n r →
  Forall valid_request reqs →
  n + Z.of_nat (length reqs) ≤ GoInt.max_int →
  issued (n + Z.of_nat (length reqs)) (register_all reqs r).1 ∧
  result_ids (register_all reqs r).2
    = seqZ (n + 1) (Z.of_nat (length reqs)) ∧
  Forall (λ res : User * error, res.2 = None) (register_all reqs r).2.
Proof.
  induction reqs as [|[[now name] email] reqs IH]; intros n r Hi Hv Hlen.
  - cbn. rewrite Z.add_0_r. by rewrite seqZ_nil.
  - apply Forall_cons in Hv as [[Hname Hemail] Hv]. cbn in Hname, Hemail.
    cbn [length] in Hlen. cbn [register_all].
    rewrite RegisterUser_valid by done.
    assert (n < GoInt.max_int) as Hlt by lia.
    pose proof (issued_nextID n r Hi Hlt) as Hnext.
    pose proof (issued_Create n now
                  {| ID := 0; Name := name; Email := email;
                     CreatedAt := zeroTime |} r Hi Hlt) as Hi'.
    cbn [Create InMemoryUserRepo_UserRepository].
    rewrite Create_result in *. cbn [fst] in Hi'.
    specialize (IH _ _ Hi' Hv).
    destruct (register_all reqs _) as [r' ress].
    destruct IH as (IH1 & IH2 & IH3); [lia|].
    cbn [fst snd length] in *. split; [|split].
    + replace (n + Z.of_nat (S (length reqs)))
        with (n + 1 + Z.of_nat (length reqs)) by lia. done.
    + unfold result_ids in *. rewrite fmap_cons, IH2. cbn [fst ID].
      rewrite Hnext.
      rewrite (seqZ_cons (n + 1)) by lia.
      do 2 f_equal; lia.
    + by constructor.
Qed.

(** C1. Registrations with non-empty name and e-mail, made one after the
    other on a new repository (fewer than 2^63 of them, so that the [int]
    counter does not wrap), all succeed; the identifier each returns is
    strictly greater than every identifier returned before, hence unique, and
    the first one is 1: the identifiers are 1, 2, 3, ... in order. *)
Theorem RegisterUser_identifiers_increase
    (reqs : list (Time * string * string)) :
  Forall valid_request reqs →
  Z.of_nat (length reqs) ≤ GoInt.max_int →
  let results := (register_all reqs NewInMemoryUserRepo).2 in
  length results = length reqs ∧
  Forall (λ res : User * error, res.2 = None) results ∧
  (∀ (i j : nat) (ri rj : User * error),
      (i < j)%nat → results !! i = Some ri → results !! j = Some rj →
      ID ri.1 < ID rj.1) ∧
  NoDup (result_ids results) ∧
  (∀ r0 : User * error, results !! 0%nat = Some r0 → ID r0.1 = 1) ∧
  result_ids results = seqZ 1 (Z.of_nat (length reqs)).
Proof.
  intros Hv Hlen results.
  destruct (register_all_issued reqs 0 NewInMemoryUserRepo issued_fresh Hv)
    as (_ & Hids & Hok); [lia|].
  fold results in Hids, Hok. cbn in Hids.
  assert (length results = length reqs) as Hl.
  { rewrite <- (length_fmap (λ res : User * error, ID res.1) results).
    fold (result_ids results). rewrite Hids, length_seqZ. lia. }
  assert (∀ (i : nat) (ri : User * error),
            results !! i = Some ri → ID ri.1 = 1 + Z.of_nat i) as Hat.
  { intros i ri Hri.
    assert (result_ids results !! i = Some (ID ri.1)) as Hid.
    { unfold result_ids. by rewrite list_lookup_fmap, Hri. }
    rewrite Hids in Hid. by apply lookup_seqZ in Hid as [-> _]. }
  repeat split; try done.
  - intros i j ri rj Hij Hi Hj.
    rewrite (Hat i ri Hi), (Hat j rj Hj). lia.
  - rewrite Hids. apply NoDup_seqZ.
  - intros r0 H0. by rewrite (Hat 0%nat r0 H0).
Qed.

Lemma RegisterUser_identifiers_increase_witness :
  Forall valid_request main_requests ∧
  Z.of_nat (length main_requests) ≤ GoInt.max_int ∧
  result_ids (register_all main_requests NewInMemoryUserRepo).2 = seqZ 1 2.
Proof.
  assert (Forall valid_request main_requests) as Hv.
  { repeat constructor; discriminate. }
  assert (Z.of_nat (length main_requests) ≤ GoInt.max_int) as Hlen.
  { vm_compute. discriminate. }
  split; [exact Hv|]. split; [exact Hlen|].
  apply (RegisterUser_identifiers_increase main_requests Hv Hlen).
Defined.

(** C2. [RegisterUser] with an empty name or an empty e-mail returns the
    validation error and the repository it was given, with the same records
    and the same counter, and a repository that records its calls records
    none; with both non-empty it returns no error. *)
Theorem RegisterUser_validation
    (r : InMemoryUserRepo) (t : Recording InMemoryUserRepo)
    (now : Time) (name email : string) :
  (name = "" ∨ email = "" →
     RegisterUser now name email r = (r, (zeroUser, Some ErrValidation)) ∧
     size (users (RegisterUser now name email r).1) = size (users r) ∧
     nextID (RegisterUser now name email r).1 = nextID r ∧
     journal (RegisterUser now name email t).1 = journal t) ∧
  (name ≠ "" ∧ email ≠ "" →
     (RegisterUser now name email r).2.2 = None ∧
     (RegisterUser now name email r).2.2 ≠ Some ErrValidation).
Proof.
  split.
  - intros Hor. by rewrite !RegisterUser_invalid.
  - intros [Hn He]. by rewrite RegisterUser_valid.
Qed.

Lemma RegisterUser_validation_witness :
  (RegisterUser 5 "" "x@example.com" NewInMemoryUserRepo
     = (NewInMemoryUserRepo, (zeroUser, Some ErrValidation)) ∧
   RegisterUser 5 "x" "" NewInMemoryUserRepo
     = (NewInMemoryUserRepo, (zeroUser, Some ErrValidation))) ∧
  (RegisterUser 5 "x" "x@example.com" NewInMemoryUserRepo).2.2 = None.
Proof.
  split; [split|].
  - apply (RegisterUser_validation NewInMemoryUserRepo
             {| inner := NewInMemoryUserRepo; journal := [] |} 5 "" "x@example.com").
    left. reflexivity.
  - apply (RegisterUser_validation NewInMemoryUserRepo
             {| inner := NewInMemoryUserRepo; journal := [] |} 5 "x" "").
    right. reflexivity.
  - apply (RegisterUser_validation NewInMemoryUserRepo
             {| inner := NewInMemoryUserRepo; journal := [] |} 5 "x" "x@example.com").
    split; discriminate.
Defined.

(** ** Reads leave the repository as it is *)

Lemma GetByID_state id (r : InMemoryUserRepo) : (GetByID id r).1 = r.
Proof. cbn. unfold InMemory.GetByID. by destruct (users r !! id). Qed.

Lemma GetUser_state ctx id (r : InMemoryUserRepo) : (GetUser ctx id r).1 = r.
Proof. unfold GetUser. destruct (Done ctx); [done|apply GetByID_state]. Qed.

Lemma RegisterUser_state now name email (r : InMemoryUserRepo) :
  (RegisterUser now name email r).1 = r ∨
  ∃ user, (RegisterUser now name email r).1 = (InMemory.Create now user r).1.
Proof.
  unfold RegisterUser.
  destruct (bool_decide (name = "") || bool_decide (email = ""));
    [by left|right; by eexists].
Qed.

(** A call either leaves the repository as it is or is one [Create]. *)
Lemma call_state (c : Call) (r : InMemoryUserRepo) :
  call c r = r ∨ ∃ now user, call c r = (InMemory.Create now user r).1.
Proof.
  destruct c as [now user|id|order|now name email|ctx id]; cbn [call].
  - right. by exists now, user.
  - left. apply GetByID_state.
  - by left.
  - destruct (RegisterUser_state now name email r) as [H|[user H]];
      [by left|right; by exists now, user].
  - left. apply GetUser_state.
Qed.

Lemma keyed_call (c : Call) r : keyed r → keyed (call c r).
Proof.
  intros Hk. destruct (call_state c r) as [->|(now & user & ->)]; [done|].
  by apply keyed_Create.
Qed.

Lemma keyed_calls (cs : list Call) : ∀ r, keyed r → keyed (calls cs r).
Proof.
  induction cs as [|c cs IH]; intros r Hk; [done|].
  cbn. apply IH. by apply keyed_call.
Qed.

(** C3. In every state the repository reaches from a new one, [GetByID id]
    returns [ErrUserNotFound] exactly when no stored record has the
    identifier [id], and returns the stored record otherwise; and in any
    state, [GetByID] of the identifier of the record that [Create] has just
    returned gives back that same record, with no error. *)
Theorem GetByID_NotFound_iff_and_round_trip :
  (∀ (cs : list Call) (id : Z),
     let r := calls cs NewInMemoryUserRepo in
     ((GetByID id r).2.2 = Some ErrUserNotFound ↔
        ¬ ∃ k u, users r !! k = Some u ∧ ID u = id) ∧
     (∀ k u, users r !! k = Some u → ID u = id →
        GetByID id r = (r, (u, None)))) ∧
  (∀ (r : InMemoryUserRepo) (now : Time) (user : User),
     let r' := (Create now user r).1 in
     let created := (Create now user r).2.1 in
     GetByID (ID created) r' = (r', (created, None))).
Proof.
  split.
  - intros cs id r.
    assert (keyed r) as Hk by apply keyed_calls, keyed_fresh.
    cbn [GetByID InMemoryUserRepo_UserRepository]. unfold InMemory.GetByID.
    split; [split|].
    + destruct (users r !! id) as [u|] eqn:Hid; [done|].
      intros _ (k & u & Hku & Hu).
      rewrite <- Hu, (Hk k u Hku) in Hid. congruence.
    + intros Hnone. destruct (users r !! id) as [u|] eqn:Hid; [|done].
      destruct Hnone. exists id, u. split; [done|]. by apply Hk.
    + intros k u Hku Hu. rewrite <- Hu, (Hk k u Hku). by rewrite Hku.
  - intros r now user. cbn.
    unfold InMemory.GetByID. cbn. by rewrite lookup_insert_eq.
Qed.

(** C5. When the context is done, [GetUser] returns the context's own error
    and the repository untouched, whatever implementation of the repository
    interface the service holds: a repository that records its calls
    records none.  When the context is not done, [GetUser] returns what
    [GetByID] returns, and a recording repository records that one call. *)
Theorem GetUser_context {R : Type} `{!UserRepository R}
    (ctx : Context) (id : Z) (s : R) (t : Recording R) :
  (Done ctx = true →
     GetUser ctx id s = (s, (zeroUser, Err ctx)) ∧
     GetUser ctx id t = (t, (zeroUser, Err ctx)) ∧
     journal (GetUser ctx id t).1 = journal t) ∧
  (Done ctx = false →
     GetUser ctx id s = GetByID id s ∧
     journal (GetUser ctx id t).1 = journal t ++ [CalledGetByID id]).
Proof.
  unfold GetUser. split; intros ->; [done|].
  split; [done|]. cbn. by destruct (GetByID id (inner t)).
Qed.

Lemma GetUser_context_witness :
  GetUser context_expired 1 (calls [CallRegisterUser 100 "a" "b"]
                               NewInMemoryUserRepo)
    = (calls [CallRegisterUser 100 "a" "b"] NewInMemoryUserRepo,
       (zeroUser, Some context_DeadlineExceeded)) ∧
  (GetUser context_live 1 (calls [CallRegisterUser 100 "a" "b"]
                              NewInMemoryUserRepo)).2
    = ({| ID := 1; Name := "a"; Email := "b"; CreatedAt := 100 |}, None).
Proof.
  set (r := calls [CallRegisterUser 100 "a" "b"] NewInMemoryUserRepo).
  pose (t := {| inner := r; journal := [] |}).
  split.
  - apply (GetUser_context context_expired 1 r t). reflexivity.
  - destruct (GetUser_context context_live 1 r t) as [_ Hlive].
    destruct (Hlive eq_refl) as [-> _]. reflexivity.
Defined.

(** C6. [Create] returns a nil error for every record and in every state of
    the repository. *)
Theorem Create_always_succeeds
    (now : Time) (user : User) (r : InMemoryUserRepo) :
  (Create now user r).2.2 = None.
Proof. reflexivity. Qed.

(** C9. [Create] does not look at the identifier and the creation time of
    the record it is given: the record it stores and returns carries the
    repository's counter as identifier and the clock reading of the call as
    creation time, and the same call with any other identifier and creation
    time in its argument has the same outcome. *)
Theorem Create_overwrites_ID_and_CreatedAt
    (now : Time) (user : User) (r : InMemoryUserRepo)
    (id' : Z) (created_at' : Time) :
  let r' := (Create now user r).1 in
  let created := (Create now user r).2.1 in
  ID created = nextID r ∧
  CreatedAt created = now ∧
  Name created = Name user ∧
  Email created = Email user ∧
  users r' !! nextID r = Some created ∧
  Create now {| ID := id'; Name := Name user; Email := Email user;
                CreatedAt := created_at' |} r = Create now user r.
Proof.
  cbn. repeat split. by rewrite lookup_insert_eq.
Qed.

(** ** Listing *)

Lemma range_append_omap (m : gmap Z User) (order : list Z) :
  InMemory.range_append m order = omap (λ k, m !! k) order.
Proof.
  unfold InMemory.range_append.
  enough (∀ acc, foldl (λ result k,
                          match m !! k with
                          | Some u => result ++ [u]
                          | None => result
                          end) acc order
                 = acc ++ omap (λ k, m !! k) order) as H by apply (H []).
  induction order as [|k order IH]; intros acc; cbn.
  - by rewrite app_nil_r.
  - rewrite IH. destruct (m !! k); [|done]. by rewrite <- app_assoc.
Qed.

Lemma omap_lookup_keys (m : gmap Z User) (l : list (Z * User)) :
  (∀ k u, (k, u) ∈ l → m !! k = Some u) →
  omap (λ k, m !! k) l.*1 = l.*2.
Proof.
  induction l as [|[k u] l IH]; intros Hl; [done|].
  cbn. rewrite (Hl k u) by apply list_elem_of_here.
  f_equal. apply IH. intros k' u' Hin. apply Hl. by apply list_elem_of_further.
Qed.

Lemma ids_of_keyed (l : list (Z * User)) :
  (∀ k u, (k, u) ∈ l → ID u = k) → ID <$> l.*2 = l.*1.
Proof.
  induction l as [|[k u] l IH]; intros Hl; [done|].
  cbn. rewrite (Hl k u) by apply list_elem_of_here.
  f_equal. apply IH. intros k' u' Hin. apply Hl. by apply list_elem_of_further.
Qed.

(** Whatever order the runtime iterates in, the listing is a permutation of
    the stored records. *)
Lemma List_Permutation (r : InMemoryUserRepo) (order : list Z) :
  InMemory.iteration_order (users r) order →
  (List order r).2 ≡ₚ (map_to_list (users r)).*2.
Proof.
  unfold InMemory.iteration_order. intros Hperm. cbn.
  rewrite range_append_omap, Hperm.
  rewrite omap_lookup_keys; [done|].
  intros k u. apply elem_of_map_to_list.
Qed.

Lemma List_ids (r : InMemoryUserRepo) (order : list Z) :
  keyed r → InMemory.iteration_order (users r) order →
  ID <$> (List order r).2 ≡ₚ (map_to_list (users r)).*1.
Proof.
  intros Hk Hperm. rewrite (List_Permutation r order Hperm).
  rewrite ids_of_keyed; [done|].
  intros k u Hin. apply Hk. by apply elem_of_map_to_list.
Qed.

Lemma create_all_issued (reqs : list (Time * User)) :
  ∀ n (r : InMemoryUserRepo),
  issued n r → keyed r →
  n + Z.of_nat (length reqs) ≤ GoInt.max_int →
  issued (n + Z.of_nat (length reqs)) (create_all reqs r).1 ∧
  keyed (create_all reqs r).1 ∧
  length (create_all reqs r).2 = length reqs ∧
  Forall (λ res : User * error, res.2 = None) (create_all reqs r).2.
Proof.
  induction reqs as [|[now user] reqs IH]; intros n r Hi Hk Hlen.
  - cbn. by rewrite Z.add_0_r.
  - cbn [length] in Hlen. cbn [create_all].
    assert (n < GoInt.max_int) as Hlt by lia.
    pose proof (issued_Create n now user r Hi Hlt) as Hi'.
    pose proof (keyed_Create now user r Hk) as Hk'.
    cbn [Create InMemoryUserRepo_UserRepository].
    destruct (InMemory.Create now user r) as [r1 [created err]] eqn:Hc.
    assert (err = None) as ->.
    { pose proof (Create_nil_error now user r) as H.
      by rewrite Hc in H. }
    cbn [fst] in Hi', Hk'.
    specialize (IH _ _ Hi' Hk').
    destruct (create_all reqs r1) as [r2 ress].
    destruct IH as (IH1 & IH2 & IH3 & IH4); [lia|].
    cbn [fst snd length] in *. split; [|split; [done|split]].
    + replace (n + Z.of_nat (S (length reqs)))
        with (n + 1 + Z.of_nat (length reqs)) by lia. done.
    + by rewrite IH3.
    + by constructor.
Qed.

(** C4. After N calls of [Create] on a new repository (N below 2^63, the
    range of the [int] counter), all of which succeed, [List] returns N
    records, in whatever order the runtime iterates over the map; their
    identifiers are pairwise distinct and lie between 1 and N.  [List]
    leaves the repository as it is. *)
Theorem List_after_Creates (reqs : list (Time * User)) (order : list Z) :
  Z.of_nat (length reqs) ≤ GoInt.max_int →
  let r := (create_all reqs NewInMemoryUserRepo).1 in
  InMemory.iteration_order (users r) order →
  let listed := (List order r).2 in
  Forall (λ res : User * error, res.2 = None)
         (create_all reqs NewInMemoryUserRepo).2 ∧
  length listed = length reqs ∧
  NoDup (ID <$> listed) ∧
  Forall (λ u, 1 ≤ ID u ≤ Z.of_nat (length reqs)) listed ∧
  (List order r).1 = r.
Proof.
  intros Hlen r Horder listed.
  destruct (create_all_issued reqs 0 NewInMemoryUserRepo
              issued_fresh keyed_fresh) as (Hi & Hk & _ & Hok); [lia|].
  fold r in Hi, Hk. rewrite Z.add_0_l in Hi.
  pose proof (List_Permutation r order Horder) as Hperm.
  pose proof (List_ids r order Hk Horder) as Hids.
  fold listed in Hperm, Hids.
  destruct Hi as (_ & _ & Hdom & Hsize).
  split; [done|]. split; [|split; [|split; [|done]]].
  - rewrite Hperm, length_fmap, length_map_to_list, Hsize. lia.
  - rewrite Hids. apply NoDup_fst_map_to_list.
  - apply Forall_forall. intros u Hu.
    assert (ID u ∈ (map_to_list (users r)).*1) as Hin.
    { rewrite <- Hids. by apply list_elem_of_fmap_2. }
    apply list_elem_of_fmap in Hin as ([k u'] & Hku & Hin). cbn in Hku.
    apply elem_of_map_to_list in Hin. apply Hdom. rewrite Hku. by eexists.
Qed.

Lemma List_after_Creates_witness :
  Z.of_nat (length two_creates) ≤ GoInt.max_int ∧
  InMemory.iteration_order
    (users (create_all two_creates NewInMemoryUserRepo).1) [1; 2] ∧
  length (List [1; 2] (create_all two_creates NewInMemoryUserRepo).1).2
    = 2%nat.
Proof.
  assert (Z.of_nat (length two_creates) ≤ GoInt.max_int) as Hlen.
  { vm_compute. discriminate. }
  assert (InMemory.iteration_order
            (users (create_all two_creates NewInMemoryUserRepo).1) [1; 2])
    as Horder.
  { unfold InMemory.iteration_order. vm_compute. apply perm_swap. }
  split; [exact Hlen|]. split; [exact Horder|].
  apply (List_after_Creates two_creates [1; 2] Hlen Horder).
Defined.

(** ** Stored records stay *)

Lemma issued_call (c : Call) n (r : InMemoryUserRepo) :
  issued n r → n < GoInt.max_int →
  ∃ n', n ≤ n' ≤ n + 1 ∧ issued n' (call c r) ∧
        ∀ k u, users r !! k = Some u → users (call c r) !! k = Some u.
Proof.
  intros Hi Hlt. destruct (call_state c r) as [->|(now & user & ->)].
  - exists n. split; [lia|]. by split.
  - exists (n + 1). split; [lia|]. split; [by apply issued_Create|].
    intros k u. by apply Create_keeps with n.
Qed.

Lemma issued_calls (cs : list Call) : ∀ n (r : InMemoryUserRepo),
  issued n r → n + Z.of_nat (length cs) ≤ GoInt.max_int →
  ∃ n', n ≤ n' ≤ n + Z.of_nat (length cs) ∧ issued n' (calls cs r) ∧
        ∀ k u, users r !! k = Some u → users (calls cs r) !! k = Some u.
Proof.
  induction cs as [|c cs IH]; intros n r Hi Hlen.
  - exists n. cbn. split; [lia|]. by split.
  - cbn [length] in Hlen.
    destruct (issued_call c n r Hi) as (n1 & Hn1 & Hi1 & Hkeep1); [lia|].
    destruct (IH n1 (call c r) Hi1) as (n2 & Hn2 & Hi2 & Hkeep2); [lia|].
    exists n2. cbn [length calls foldl]. split; [lia|]. split; [done|].
    intros k u Hku. apply Hkeep2, Hkeep1, Hku.
Qed.

(** C7. A record that the repository holds after some calls is still held,
    under the same identifier and with the same creation time, after any
    further calls of [Create], [GetByID], [List], [RegisterUser] and
    [GetUser] (fewer than 2^63 calls in all, the range of the [int]
    counter). *)
Theorem stored_ID_and_CreatedAt_never_change
    (before after : list Call) (k : Z) (u : User) :
  Z.of_nat (length before + length after) ≤ GoInt.max_int →
  let r := calls before NewInMemoryUserRepo in
  let r' := calls after r in
  users r !! k = Some u →
  ID u = k ∧
  ∃ u', users r' !! k = Some u' ∧
        ID u' = ID u ∧ CreatedAt u' = CreatedAt u.
Proof.
  intros Hlen r r' Hku.
  destruct (issued_calls before 0 NewInMemoryUserRepo issued_fresh)
    as (n & Hn & Hi & _); [lia|].
  fold r in Hi.
  destruct (issued_calls after n r Hi) as (n' & _ & _ & Hkeep); [lia|].
  fold r' in Hkeep. split.
  - by apply (keyed_calls before NewInMemoryUserRepo keyed_fresh).
  - exists u. split; [by apply Hkeep|done].
Qed.

Lemma stored_ID_and_CreatedAt_never_change_witness :
  ∃ u', users (calls calls_after (calls calls_before NewInMemoryUserRepo))
          !! 1 = Some u' ∧
        ID u' = 1 ∧ CreatedAt u' = 100.
Proof.
  apply (stored_ID_and_CreatedAt_never_change calls_before calls_after 1
           {| ID := 1; Name := "Gaurav"; Email := "gaurav@example.com";
              CreatedAt := 100 |}).
  - vm_compute. discriminate.
  - reflexivity.
Defined.

(** ** The logger pipeline *)

Section LoggerFacts.
Import Logger.

Ltac step_cases s :=
  destruct s as [[[|msg pending]| | |] [|held| |] [|] w out];
  cbn in *; try case_bool_decide; simplify_eq; cbn in *.

Lemma coherent_init msgs : coherent msgs (init msgs).
Proof. by repeat split. Qed.

Lemma coherent_step msgs s s' : coherent msgs s → step s s' → coherent msgs s'.
Proof.
  intros (Hout & Hclosed & Hwg & Hleft & Hexit) [Hs|Hs];
    unfold coherent, main_step, logger_step, in_hand, unsent in *;
    step_cases s; repeat split; try done; try lia.
  all: simplify_eq; rewrite <- ?app_assoc, ?app_nil_r; by cbn.
Qed.

Lemma coherent_rtc msgs s s' :
  coherent msgs s → rtc step s s' → coherent msgs s'.
Proof. intros Hc Hs. induction Hs; eauto using coherent_step. Qed.

Lemma step_fuel s s' : step s s' → (fuel s' < fuel s)%nat.
Proof.
  intros [Hs|Hs]; unfold main_step, logger_step, fuel in *;
    step_cases s; lia.
Qed.

Lemma coherent_progress msgs s :
  coherent msgs s → main_pc s ≠ MExit → ∃ s', step s s'.
Proof.
  intros (Hout & Hclosed & Hwg & Hleft & Hexit) Hne.
  unfold step, main_step, logger_step.
  destruct s as [[[|msg pending]| | |] [|held| |] c w out];
    cbn in *; simplify_eq; eauto.
Qed.

Lemma coherent_exit msgs s :
  coherent msgs s → main_pc s = MExit → output s = line <$> msgs.
Proof.
  intros (Hout & _ & _ & _ & Hexit) Hpc.
  unfold in_hand, unsent in Hout. rewrite Hpc in Hout, Hexit.
  rewrite Hexit in Hout. cbn in Hout. by rewrite app_nil_r in Hout.
Qed.

Lemma coherent_terminates msgs : ∀ (n : nat) s,
  (fuel s < n)%nat → coherent msgs s →
  ∃ s', rtc step s s' ∧ main_pc s' = MExit.
Proof.
  induction n as [|n IH]; intros s Hfuel Hc; [lia|].
  destruct (decide (main_pc s = MExit)) as [Hpc|Hpc].
  - by exists s.
  - destruct (coherent_progress msgs s Hc Hpc) as [s1 Hs1].
    destruct (IH s1) as (s' & Hs' & Hexit).
    + pose proof (step_fuel s s1 Hs1). lia.
    + by apply coherent_step with s.
    + exists s'. split; [by eapply rtc_l|done].
Qed.

Lemma run_rtc schedule : ∀ s s', run schedule s = Some s' → rtc step s s'.
Proof.
  induction schedule as [|th schedule IH]; intros s s' Hrun; cbn in Hrun.
  - by simplify_eq.
  - destruct (thread_step th s) as [s1|] eqn:Hth; [|done].
    eapply rtc_l; [|by apply IH].
    destruct th; [by left|by right].
Qed.

End LoggerFacts.

(** C8. In every state that [main] and [asyncLogger] reach, in whatever
    interleaving, from the start of the sends of [msgs]: the lines printed
    so far are the first of the messages, in the order they are sent;
    [wg.Wait()] has returned only if every message has been printed; the
    two threads are not stuck before that; every step uses up fuel, so the
    run ends; and it can be brought to the end, where [wg.Wait()] has
    returned. *)
Theorem logger_prints_in_order_and_completes
    (msgs : list string) (s : Logger.State) :
  rtc Logger.step (Logger.init msgs) s →
  Logger.output s `prefix_of` (Logger.line <$> msgs) ∧
  (Logger.main_pc s = Logger.MExit →
     Logger.output s = Logger.line <$> msgs) ∧
  (Logger.main_pc s ≠ Logger.MExit → ∃ s', Logger.step s s') ∧
  (∀ s', Logger.step s s' → (Logger.fuel s' < Logger.fuel s)%nat) ∧
  (∃ s', rtc Logger.step s s' ∧ Logger.main_pc s' = Logger.MExit).
Proof.
  intros Hrun.
  assert (Logger.coherent msgs s) as Hc
    by (eapply coherent_rtc; [apply coherent_init|done]).
  split; [|split; [|split; [|split]]].
  - destruct Hc as [Hout _]. rewrite Hout. by eexists.
  - by apply coherent_exit.
  - by apply coherent_progress with msgs.
  - apply step_fuel.
  - by apply (coherent_terminates msgs (S (Logger.fuel s))); [lia|].
Qed.

Lemma logger_prints_in_order_and_completes_witness :
  rtc Logger.step (Logger.init ["a"; "b"; "c"])
                  (Logger.finished ["a"; "b"; "c"]) ∧
  Logger.output (Logger.finished ["a"; "b"; "c"])
    = ["ASYNC LOG: a"; "ASYNC LOG: b"; "ASYNC LOG: c"].
Proof.
  assert (rtc Logger.step (Logger.init ["a"; "b"; "c"])
                          (Logger.finished ["a"; "b"; "c"])) as Hrun.
  { (* send a, print a, send b, print b, send c; main leaves its loop and
       closes the channel before c is printed; print c, the range loop
       ends, wg.Done(); wg.Wait() returns *)
    apply (run_rtc [Logger.ThMain; Logger.ThLogger; Logger.ThMain;
                    Logger.ThLogger; Logger.ThMain; Logger.ThMain;
                    Logger.ThMain; Logger.ThLogger; Logger.ThLogger;
                    Logger.ThLogger; Logger.ThMain]).
    vm_compute. reflexivity. }
  split; [exact Hrun|].
  destruct (logger_prints_in_order_and_completes
              ["a"; "b"; "c"] (Logger.finished ["a"; "b"; "c"]) Hrun)
    as (_ & Hexit & _).
  rewrite (Hexit eq_refl). reflexivity.
Defined.

(** C10. With [Y] an [int16] equal to 32767, [Y+2] wraps around modulo 2^16
    to -32767 and [Y-2] is 32765: the program prints "-32767 32765", and
    32769 is not what [Y+2] evaluates to. *)
Theorem int16_addition_wraps :
  GoInt.int16_add Basics.Y 2 = -32767 ∧
  GoInt.int16_add Basics.Y 2 = (Basics.Y + 2) - 2 ^ 16 ∧
  GoInt.int16_sub Basics.Y 2 = 32765 ∧
  GoInt.int16_add Basics.Y 2 ≠ 32769 ∧
  Basics.main_line18 = "-32767 32765" +:+ Basics.newline.
Proof.
  split; [reflexivity|]. split; [reflexivity|]. split; [reflexivity|].
  split; [|reflexivity]. vm_compute. discriminate.
Qed.

(** ** The run of [main] *)

Example main_registers_1_and_2 :
  (register_all main_requests NewInMemoryUserRepo).2 =
    [({| ID := 1; Name := "Gaurav"; Email := "gaurav@example.com";
         CreatedAt := 100 |}, None);
     ({| ID := 2; Name := "Amit"; Email := "amit@example.com";
         CreatedAt := 200 |}, None)].
Proof. reflexivity. Qed.

Example main_fetches_user_1 :
  (GetUser context_live 1 (register_all main_requests NewInMemoryUserRepo).1).2
    = ({| ID := 1; Name := "Gaurav"; Email := "gaurav@example.com";
          CreatedAt := 100 |}, None).
Proof. reflexivity. Qed.

Example main_Sum : Sum [1; 2; 3; 4; 5] = 15.
Proof. reflexivity. Qed.

Example GetByID_never_issued :
  GetByID 3 (register_all main_requests NewInMemoryUserRepo).1
    = ((register_all main_requests NewInMemoryUserRepo).1,
       (zeroUser, Some ErrUserNotFound)).
Proof. reflexivity. Qed.

(** * Further properties of the code *)

(** ** Wrap-around *)

Lemma wrap_add_l w a b :
  0 < w → GoInt.wrap w (GoInt.wrap w a + b) = GoInt.wrap w (a + b).
Proof.
  intros Hw. unfold GoInt.wrap. f_equal.
  replace ((a + 2 ^ (w - 1)) mod 2 ^ w - 2 ^ (w - 1) + b + 2 ^ (w - 1))
    with ((a + 2 ^ (w - 1)) mod 2 ^ w + b) by lia.
  rewrite Zplus_mod_idemp_l. f_equal. lia.
Qed.

Lemma wrap_range w z :
  0 < w → - 2 ^ (w - 1) ≤ GoInt.wrap w z < 2 ^ (w - 1).
Proof.
  intros Hw. unfold GoInt.wrap.
  assert (2 ^ w = 2 * 2 ^ (w - 1)) as Hp.
  { rewrite <- Z.pow_succ_r by lia. f_equal. lia. }
  assert (0 < 2 ^ (w - 1)) by (apply Z.pow_pos_nonneg; lia).
  pose proof (Z.mod_pos_bound (z + 2 ^ (w - 1)) (2 ^ w)). lia.
Qed.

Lemma int_add_range a b :
  GoInt.min_int ≤ GoInt.int_add a b ≤ GoInt.max_int.
Proof.
  pose proof (wrap_range GoInt.int_bits (a + b) eq_refl) as H.
  unfold GoInt.int_add, GoInt.min_int, GoInt.max_int. lia.
Qed.

(** ** [Sum] *)

Lemma Sum_from (nums : list Z) : ∀ acc,
  foldl (λ total n, GoInt.int_add total n) (GoInt.wrap GoInt.int_bits acc) nums
    = GoInt.wrap GoInt.int_bits (acc + total nums).
Proof.
  induction nums as [|n nums IH]; intros acc; cbn [foldl total foldr].
  - by rewrite Z.add_0_r.
  - unfold GoInt.int_add at 2. rewrite wrap_add_l by done.
    rewrite IH. f_equal. fold (total nums). lia.
Qed.

Lemma Sum_wrap (nums : list Z) :
  Sum nums = GoInt.wrap GoInt.int_bits (total nums).
Proof. apply (Sum_from nums 0). Qed.

Lemma total_app (a b : list Z) : total (a ++ b) = total a + total b.
Proof.
  induction a as [|x a IH]; cbn; [done|].
  fold (total (a ++ b)). fold (total a). lia.
Qed.

Lemma total_Permutation (a b : list Z) : a ≡ₚ b → total a = total b.
Proof.
  induction 1 as [|x a b _ IH|x y a|a b c _ IH1 _ IH2]; cbn.
  - done.
  - fold (total a). fold (total b). lia.
  - lia.
  - congruence.
Qed.

(** X1. [Sum] returns the sum of its arguments reduced to 64 bits in two's
    complement, whatever the partial sums do on the way: the result is
    always an [int], and it is the exact sum whenever the exact sum is an
    [int]. *)
Theorem Sum_is_the_wrapped_total (nums : list Z) :
  Sum nums = GoInt.wrap GoInt.int_bits (total nums) ∧
  GoInt.min_int ≤ Sum nums ≤ GoInt.max_int ∧
  (GoInt.min_int ≤ total nums ≤ GoInt.max_int → Sum nums = total nums).
Proof.
  split; [apply Sum_wrap|]. split.
  - rewrite Sum_wrap.
    pose proof (wrap_range GoInt.int_bits (total nums) eq_refl) as H.
    unfold GoInt.min_int, GoInt.max_int. lia.
  - intros H. rewrite Sum_wrap. apply wrap_small; [done|].
    unfold GoInt.min_int, GoInt.max_int in H. lia.
Qed.

Lemma Sum_is_the_wrapped_total_witness :
  Sum [GoInt.max_int; 1; -2] = GoInt.max_int - 1.
Proof.
  apply (Sum_is_the_wrapped_total [GoInt.max_int; 1; -2]).
  vm_compute. split; discriminate.
Defined.

(** X2. [Sum] does not depend on the order of its arguments, and the sum of
    two lists put together is the [int] sum of their sums. *)
Theorem Sum_order_and_append (nums nums' : list Z) :
  (nums ≡ₚ nums' → Sum nums = Sum nums') ∧
  Sum (nums ++ nums') = GoInt.int_add (Sum nums) (Sum nums').
Proof.
  split.
  - intros Hp. by rewrite !Sum_wrap, (total_Permutation _ _ Hp).
  - rewrite !Sum_wrap, total_app. unfold GoInt.int_add.
    rewrite wrap_add_l by done.
    rewrite (Z.add_comm (total nums) (GoInt.wrap _ _)), wrap_add_l by done.
    f_equal. lia.
Qed.

Lemma Sum_order_and_append_witness :
  Sum [1; 2; 3; 4; 5] = Sum [5; 3; 1; 4; 2].
Proof.
  apply (Sum_order_and_append [1; 2; 3; 4; 5] [5; 3; 1; 4; 2]).
  apply (bool_decide_unpack _). vm_compute. exact I.
Defined.

(** ** The repository's counter and keys *)

Lemma issued_size n r : issued n r → Z.of_nat (size (users r)) = n.
Proof. intros (Hn & _ & _ & Hsize). rewrite Hsize. lia. Qed.

Lemma reached_issued (cs : list Call) :
  Z.of_nat (length cs) ≤ GoInt.max_int →
  let r := calls cs NewInMemoryUserRepo in
  issued (Z.of_nat (size (users r))) r ∧
  Z.of_nat (size (users r)) ≤ Z.of_nat (length cs).
Proof.
  intros Hlen r.
  destruct (issued_calls cs 0 NewInMemoryUserRepo issued_fresh)
    as (n & Hn & Hi & _); [lia|].
  fold r in Hi. rewrite (issued_size n r Hi). split; [done|lia].
Qed.

(** X3. [Create] changes what [GetByID] answers at the identifier it hands
    out and nowhere else. *)
Theorem Create_leaves_other_ids
    (now : Time) (user : User) (r : InMemoryUserRepo) (id : Z) :
  id ≠ nextID r →
  (GetByID id (Create now user r).1).2 = (GetByID id r).2.
Proof.
  intros Hne. cbn. unfold InMemory.GetByID. cbn.
  rewrite lookup_insert_ne by done. by destruct (users r !! id).
Qed.

Lemma Create_leaves_other_ids_witness :
  (GetByID 1 (Create 300 zeroUser
                (register_all main_requests NewInMemoryUserRepo).1).1).2
    = (GetByID 1 (register_all main_requests NewInMemoryUserRepo).1).2.
Proof.
  apply (Create_leaves_other_ids 300 zeroUser
           (register_all main_requests NewInMemoryUserRepo).1 1).
  vm_compute. discriminate.
Defined.



(** X5. After any calls on a new repository, at most 2^63-1 of them,
    [GetByID id] succeeds exactly for the identifiers from 1 to the number
    of stored records, and the record it returns has the identifier asked
    for. *)
Theorem GetByID_succeeds_iff_in_range (cs : list Call) (id : Z) :
  Z.of_nat (length cs) ≤ GoInt.max_int →
  let r := calls cs NewInMemoryUserRepo in
  ((GetByID id r).2.2 = None ↔ 1 ≤ id ≤ Z.of_nat (size (users r))) ∧
  ((GetByID id r).2.2 = None → ID (GetByID id r).2.1 = id).
Proof.
  intros Hlen r.
  destruct (reached_issued cs Hlen) as [Hi _]. fold r in Hi.
  destruct Hi as (_ & _ & Hdom & _).
  assert (keyed r) as Hk by apply keyed_calls, keyed_fresh.
  cbn [GetByID InMemoryUserRepo_UserRepository]. unfold InMemory.GetByID.
  rewrite <- Hdom.
  destruct (users r !! id) as [u|] eqn:Hid; cbn.
  - split; [by split; [eexists|]|]. intros _. by apply Hk.
  - split; [|done]. split; [done|]. by intros [? ?].
Qed.

Lemma GetByID_succeeds_iff_in_range_witness :
  (GetByID 3 (calls (calls_before ++ calls_after) NewInMemoryUserRepo)).2.2
    = None.
Proof.
  apply (GetByID_succeeds_iff_in_range (calls_before ++ calls_after) 3).
  - vm_compute. discriminate.
  - vm_compute. split; discriminate.
Defined.

(** X6. The counter of the repository goes up by one with every [Create]
    as long as it is below the largest [int]; at the largest [int],
    [Create] hands that identifier out and the counter wraps around to the
    smallest [int]. *)
Theorem Create_counter (now : Time) (user : User) (r : InMemoryUserRepo) :
  let r' := (Create now user r).1 in
  (GoInt.min_int ≤ nextID r < GoInt.max_int → nextID r' = nextID r + 1) ∧
  (nextID r = GoInt.max_int →
     ID (Create now user r).2.1 = GoInt.max_int ∧
     nextID r' = GoInt.min_int).
Proof.
  cbn. split.
  - intros H. apply int_add_small. pose proof min_int_neg. lia.
  - intros ->. by split.
Qed.

Lemma Create_counter_witness :
  nextID (Create 100 zeroUser NewInMemoryUserRepo).1 = 1 + 1 ∧
  nextID (Create 100 zeroUser {| users := ∅; nextID := GoInt.max_int |}).1
    = GoInt.min_int.
Proof.
  split.
  - apply (Create_counter 100 zeroUser NewInMemoryUserRepo).
    vm_compute. split; [discriminate|reflexivity].
  - apply (Create_counter 100 zeroUser
             {| users := ∅; nextID := GoInt.max_int |}).
    reflexivity.
Defined.

(** ** Listing and fetching *)

Lemma elem_of_List (r : InMemoryUserRepo) (order : list Z) (u : User) :
  InMemory.iteration_order (users r) order →
  u ∈ (List order r).2 ↔ ∃ k, users r !! k = Some u.
Proof.
  intros Horder. rewrite (List_Permutation r order Horder).
  rewrite list_elem_of_fmap. split.
  - intros ([k u'] & -> & Hin). exists k. by apply elem_of_map_to_list.
  - intros [k Hk]. exists (k, u). split; [done|].
    by apply elem_of_map_to_list.
Qed.

(** X7. In any state of the repository and for any order in which the
    runtime iterates over the map, [List] returns the stored records and
    nothing else, as many as the map holds; two listings of the same state
    differ at most in their order. *)
Theorem List_is_a_snapshot (r : InMemoryUserRepo) (order order' : list Z) :
  InMemory.iteration_order (users r) order →
  InMemory.iteration_order (users r) order' →
  let listed := (List order r).2 in
  (∀ u, u ∈ listed ↔ ∃ k, users r !! k = Some u) ∧
  length listed = size (users r) ∧
  listed ≡ₚ (List order' r).2.
Proof.
  intros Horder Horder' listed. split; [|split].
  - intros u. by apply elem_of_List.
  - unfold listed. rewrite (List_Permutation r order Horder).
    by rewrite length_fmap, length_map_to_list.
  - unfold listed. rewrite (List_Permutation r order Horder).
    by rewrite (List_Permutation r order' Horder').
Qed.

Lemma List_is_a_snapshot_witness :
  length (List [1; 2] (register_all main_requests NewInMemoryUserRepo).1).2
    = size (users (register_all main_requests NewInMemoryUserRepo).1) ∧
  (List [1; 2] (register_all main_requests NewInMemoryUserRepo).1).2
    ≡ₚ (List [2; 1] (register_all main_requests NewInMemoryUserRepo).1).2.
Proof.
  assert (InMemory.iteration_order
            (users (register_all main_requests NewInMemoryUserRepo).1) [1; 2])
    as H12.
  { unfold InMemory.iteration_order. vm_compute. apply perm_swap. }
  assert (InMemory.iteration_order
            (users (register_all main_requests NewInMemoryUserRepo).1) [2; 1])
    as H21.
  { unfold InMemory.iteration_order. vm_compute. reflexivity. }
  split;
    apply (List_is_a_snapshot
             (register_all main_requests NewInMemoryUserRepo).1
             [1; 2] [2; 1] H12 H21).
Defined.

(** X8. After any calls on a new repository, the records that [List]
    returns are the records that [GetByID] returns for their own
    identifier. *)
Theorem List_agrees_with_GetByID
    (cs : list Call) (order : list Z) (u : User) :
  let r := calls cs NewInMemoryUserRepo in
  InMemory.iteration_order (users r) order →
  u ∈ (List order r).2 ↔ GetByID (ID u) r = (r, (u, None)).
Proof.
  intros r Horder.
  assert (keyed r) as Hk by apply keyed_calls, keyed_fresh.
  rewrite (elem_of_List r order u Horder).
  cbn [GetByID InMemoryUserRepo_UserRepository]. unfold InMemory.GetByID.
  split.
  - intros [k Hku]. rewrite <- (Hk k u Hku) in Hku. by rewrite Hku.
  - intros Hget. exists (ID u).
    destruct (users r !! ID u) as [u'|]; by simplify_eq.
Qed.

Lemma List_agrees_with_GetByID_witness :
  GetByID 2 (calls (calls_before ++ calls_after) NewInMemoryUserRepo)
    = (calls (calls_before ++ calls_after) NewInMemoryUserRepo,
       ({| ID := 2; Name := "Amit"; Email := "amit@example.com";
           CreatedAt := 200 |}, None)).
Proof.
  apply (List_agrees_with_GetByID (calls_before ++ calls_after) [3; 1; 2]
           {| ID := 2; Name := "Amit"; Email := "amit@example.com";
              CreatedAt := 200 |}).
  - unfold InMemory.iteration_order. vm_compute.
    apply (bool_decide_unpack _). vm_compute. exact I.
  - apply (bool_decide_unpack _). vm_compute. exact I.
Defined.

(** ** Registering and fetching *)

(** X9. The record that [RegisterUser] returns for a non-empty name and
    e-mail carries that name and e-mail, the repository's counter and the
    clock reading of the call.  Fetching its identifier afterwards with
    [GetUser] returns the same record under a context that is not done, and
    the context's error, with no record, under one that is. *)
Theorem RegisterUser_then_GetUser
    (r : InMemoryUserRepo) (now : Time) (name email : string)
    (ctx : Context) :
  name ≠ "" → email ≠ "" →
  let r' := (RegisterUser now name email r).1 in
  let created := (RegisterUser now name email r).2.1 in
  created = {| ID := nextID r; Name := name; Email := email;
               CreatedAt := now |} ∧
  (Done ctx = false → GetUser ctx (ID created) r' = (r', (created, None))) ∧
  (Done ctx = true → GetUser ctx (ID created) r' = (r', (zeroUser, Err ctx))).
Proof.
  intros Hn He. rewrite RegisterUser_valid by done.
  cbn. split; [done|]. unfold GetUser. split; intros ->; [|done].
  cbn. unfold InMemory.GetByID. cbn. by rewrite lookup_insert_eq.
Qed.

Lemma RegisterUser_then_GetUser_witness :
  GetUser context_live 1
    (RegisterUser 100 "Gaurav" "gaurav@example.com" NewInMemoryUserRepo).1
  = ((RegisterUser 100 "Gaurav" "gaurav@example.com" NewInMemoryUserRepo).1,
     ({| ID := 1; Name := "Gaurav"; Email := "gaurav@example.com";
         CreatedAt := 100 |}, None)).
Proof.
  apply (RegisterUser_then_GetUser NewInMemoryUserRepo 100
           "Gaurav" "gaurav@example.com" context_live);
    [discriminate|discriminate|reflexivity].
Defined.

(** X10. For a context that reports an error whenever it is done,
    [GetUser] succeeds exactly when the context is not done and the
    identifier is stored.  When it fails, the record it returns is [User{}]
    and the error is the context's or [ErrUserNotFound]. *)
Theorem GetUser_succeeds_iff
    (ctx : Context) (id : Z) (r : InMemoryUserRepo) :
  (Done ctx = true → Err ctx ≠ None) →
  ((GetUser ctx id r).2.2 = None ↔
     Done ctx = false ∧ is_Some (users r !! id)) ∧
  ((GetUser ctx id r).2.2 ≠ None →
     (GetUser ctx id r).2.1 = zeroUser ∧
     ((GetUser ctx id r).2.2 = Err ctx ∨
      (GetUser ctx id r).2.2 = Some ErrUserNotFound)).
Proof.
  intros Hctx. unfold GetUser. destruct (Done ctx) eqn:Hd.
  - cbn. split; [|by auto]. split; [by intros ?%Hctx|by intros [? _]].
  - cbn. unfold InMemory.GetByID.
    destruct (users r !! id) as [u|]; cbn.
    + split; [by split; [split; [|eexists]|]|done].
    + split; [|by auto]. split; [done|]. by intros [_ [? ?]].
Qed.

Lemma GetUser_succeeds_iff_witness :
  (GetUser context_expired 1
     (register_all main_requests NewInMemoryUserRepo).1).2.1 = zeroUser.
Proof.
  apply (GetUser_succeeds_iff context_expired 1
           (register_all main_requests NewInMemoryUserRepo).1).
  - intros _. discriminate.
  - discriminate.
Defined.

(** ** The registration loop *)

Lemma RegisterUser_issued n now name email (r : InMemoryUserRepo) :
  issued n r → n < GoInt.max_int → name ≠ "" → email ≠ "" →
  ∃ r', RegisterUser now name email r
          = (r', (registered (n + 1) (now, name, email), None)) ∧
        issued (n + 1) r'.
Proof.
  intros Hi Hlt Hn He. rewrite RegisterUser_valid by done.
  pose proof (issued_Create n now
                {| ID := 0; Name := name; Email := email;
                   CreatedAt := zeroTime |} r Hi Hlt) as Hi'.
  cbn [Create InMemoryUserRepo_UserRepository].
  rewrite Create_result in *. cbn [fst] in Hi'.
  eexists. split; [|exact Hi'].
  unfold registered. cbn. by rewrite (issued_nextID n r Hi Hlt).
Qed.

Lemma register_loop_issued (Sprintf_user : User → string) reqs :
  ∀ n (r : InMemoryUserRepo),
  issued n r →
  n + Z.of_nat (length (filter valid_request reqs)) ≤ GoInt.max_int →
  sent_messages (register_loop Sprintf_user reqs r).2
    = Sprintf_user <$>
        zip_with registered
          (seqZ (n + 1) (Z.of_nat (length (filter valid_request reqs))))
          (filter valid_request reqs) ∧
  logged_errors (register_loop Sprintf_user reqs r).2
    = replicate (length reqs - length (filter valid_request reqs))
                ErrValidation ∧
  (register_loop Sprintf_user reqs r).1
    = (register_all (filter valid_request reqs) r).1 ∧
  issued (n + Z.of_nat (length (filter valid_request reqs)))
         (register_loop Sprintf_user reqs r).1.
Proof.
  induction reqs as [|[[now name] email] reqs IH]; intros n r Hi Hlen.
  - cbn. rewrite Z.add_0_r. by rewrite seqZ_nil.
  - destruct (decide (valid_request (now, name, email))) as [Hv|Hv].
    + rewrite filter_cons_True in * by done. cbn [length] in *.
      destruct Hv as [Hn He]. cbn in Hn, He.
      destruct (RegisterUser_issued n now name email r Hi)
        as (r' & Hreg & Hi'); [lia|done|done|].
      cbn [register_loop register_all]. rewrite Hreg.
      destruct (IH (n + 1) r' Hi') as (IH1 & IH2 & IH3 & IH4); [lia|].
      destruct (register_loop Sprintf_user reqs r') as [r1 evs].
      destruct (register_all (filter valid_request reqs) r') as [r2 ress].
      unfold sent_messages, logged_errors in *.
      cbn [fst snd] in *. split; [|split; [|split]].
      * cbn. rewrite IH1. rewrite (seqZ_cons (n + 1)) by lia.
        cbn.
        replace (Z.succ (n + 1)) with (n + 1 + 1) by lia.
        by replace (Z.pred (Z.of_nat
                              (S (length (filter valid_request reqs)))))
          with (Z.of_nat (length (filter valid_request reqs))) by lia.
      * done.
      * done.
      * replace (n + Z.of_nat (S (length (filter valid_request reqs))))
          with (n + 1 + Z.of_nat (length (filter valid_request reqs)))
          by lia. done.
    + rewrite filter_cons_False in * by done.
      assert (name = "" ∨ email = "") as Hor.
      { unfold valid_request in Hv. cbn in Hv.
        destruct (decide (name = "")); [by left|right].
        destruct (decide (email = "")); [done|]. by destruct Hv. }
      cbn [register_loop]. rewrite (RegisterUser_invalid now name email r Hor).
      destruct (IH n r Hi Hlen) as (IH1 & IH2 & IH3 & IH4).
      destruct (register_loop Sprintf_user reqs r) as [r1 evs].
      unfold sent_messages, logged_errors in *.
      cbn [fst snd] in *. split; [done|]. split; [|done].
      cbn. rewrite IH2.
      pose proof (length_filter valid_request reqs) as Hle.
      cbn [length].
      by replace (S (length reqs) - length (filter valid_request reqs))%nat
        with (S (length reqs - length (filter valid_request reqs)))%nat
        by lia.
Qed.

(** X11. The registration loop of [main] on a new repository, for any list
    of requests of which fewer than 2^63 are accepted: it sends one message
    for every request with a non-empty name and e-mail, in the order of the
    requests, made from the record with the next identifier 1, 2, 3, ...;
    it logs the validation error for every other request and goes on; and
    it leaves the repository as the accepted requests alone would, with one
    record for each. *)
Theorem register_loop_skips_refused_requests
    (Sprintf_user : User → string) (reqs : list (Time * string * string)) :
  let accepted := filter valid_request reqs in
  Z.of_nat (length accepted) ≤ GoInt.max_int →
  let out := register_loop Sprintf_user reqs NewInMemoryUserRepo in
  sent_messages out.2
    = Sprintf_user <$>
        zip_with registered (seqZ 1 (Z.of_nat (length accepted))) accepted ∧
  logged_errors out.2
    = replicate (length reqs - length accepted) ErrValidation ∧
  out.1 = (register_all accepted NewInMemoryUserRepo).1 ∧
  size (users out.1) = length accepted.
Proof.
  intros accepted Hlen out.
  destruct (register_loop_issued Sprintf_user reqs 0 NewInMemoryUserRepo
              issued_fresh) as (H1 & H2 & H3 & H4); [fold accepted; lia|].
  fold accepted in H1, H2, H3, H4. fold out in H1, H2, H3, H4.
  split; [done|]. split; [done|]. split; [done|].
  apply issued_size in H4. lia.
Qed.

Lemma register_loop_skips_refused_requests_witness :
  sent_messages (register_loop Name mixed_requests NewInMemoryUserRepo).2
    = ["Gaurav"; "Amit"] ∧
  logged_errors (register_loop Name mixed_requests NewInMemoryUserRepo).2
    = [ErrValidation; ErrValidation].
Proof.
  assert (Z.of_nat (length (filter valid_request mixed_requests))
            ≤ GoInt.max_int) as Hlen.
  { vm_compute. discriminate. }
  destruct (register_loop_skips_refused_requests Name mixed_requests Hlen)
    as (H1 & H2 & _).
  split; [rewrite H1|rewrite H2]; reflexivity.
Defined.

(** ** The logger pipeline never panics and leaves no goroutine behind *)

(** X12. In every state that [main] and [asyncLogger] reach, in whatever
    interleaving: [main] is not about to send on, or to close, a channel
    that is already closed, and the counter of the [WaitGroup] is 1 until
    the logger has run [wg.Done()] and 0 afterwards, never negative. *)
Theorem logger_pipeline_never_panics (msgs : list string) (s : Logger.State) :
  rtc Logger.step (Logger.init msgs) s →
  (∀ pending, Logger.main_pc s = Logger.MLoop pending →
     Logger.closed s = false) ∧
  (Logger.main_pc s = Logger.MClose → Logger.closed s = false) ∧
  (Logger.logger_pc s ≠ Logger.LDone → Logger.wg s = 1) ∧
  (Logger.logger_pc s = Logger.LDone → Logger.wg s = 0).
Proof.
  intros Hrun.
  assert (Logger.coherent msgs s) as (_ & Hclosed & Hwg & _)
    by (eapply coherent_rtc; [apply coherent_init|done]).
  split; [|split; [|split]].
  - intros pending Hpc. by rewrite Hpc in Hclosed.
  - intros Hpc. by rewrite Hpc in Hclosed.
  - intros Hpc. by destruct (Logger.logger_pc s).
  - intros Hpc. by rewrite Hpc in Hwg.
Qed.

Lemma logger_pipeline_never_panics_witness :
  ∃ s, Logger.run [Logger.ThMain; Logger.ThLogger; Logger.ThMain]
                  (Logger.init ["a"; "b"; "c"]) = Some s ∧
       Logger.wg s = 1.
Proof.
  eexists. split; [vm_compute; reflexivity|].
  apply (logger_pipeline_never_panics ["a"; "b"; "c"]).
  - apply (run_rtc [Logger.ThMain; Logger.ThLogger; Logger.ThMain]).
    vm_compute. reflexivity.
  - discriminate.
Defined.

(** X13. Whatever the interleaving, once [wg.Wait()] has returned in
    [main] the pipeline is in one and the same state: the logger has
    returned, the channel is closed, the [WaitGroup] is at 0 and the output
    holds a line for every message, in order. *)
Theorem logger_pipeline_ends_in_one_state
    (msgs : list string) (s : Logger.State) :
  rtc Logger.step (Logger.init msgs) s →
  Logger.main_pc s = Logger.MExit →
  s = Logger.finished msgs.
Proof.
  intros Hrun Hpc.
  assert (Logger.coherent msgs s) as Hc
    by (eapply coherent_rtc; [apply coherent_init|done]).
  pose proof (coherent_exit msgs s Hc Hpc) as Hout.
  destruct Hc as (_ & Hclosed & Hwg & _ & Hexit).
  rewrite Hpc in Hclosed, Hexit. rewrite Hexit in Hwg.
  destruct s as [mp lp c w out]. cbn in *. by subst.
Qed.

Lemma logger_pipeline_ends_in_one_state_witness :
  ∃ s, Logger.run Logger.eager_schedule (Logger.init ["a"; "b"; "c"])
         = Some s ∧
       s = Logger.finished ["a"; "b"; "c"].
Proof.
  eexists. split; [vm_compute; reflexivity|].
  apply (logger_pipeline_ends_in_one_state ["a"; "b"; "c"]).
  - apply (run_rtc Logger.eager_schedule). vm_compute. reflexivity.
  - reflexivity.
Defined.

(** X14. [main] from its registrations to its exit, for any list of
    requests of which fewer than 2^63 are accepted: when [wg.Wait()] has
    returned, the logger has printed one line for every accepted request
    and none for the others, in the order of the requests, each made from
    the record that was registered. *)
Theorem main_logs_every_registration
    (Sprintf_user : User → string) (reqs : list (Time * string * string))
    (s : Logger.State) :
  let accepted := filter valid_request reqs in
  Z.of_nat (length accepted) ≤ GoInt.max_int →
  let msgs :=
    sent_messages (register_loop Sprintf_user reqs NewInMemoryUserRepo).2 in
  rtc Logger.step (Logger.init msgs) s →
  Logger.main_pc s = Logger.MExit →
  Logger.output s
    = (λ u, Logger.line (Sprintf_user u)) <$>
        zip_with registered (seqZ 1 (Z.of_nat (length accepted))) accepted.
Proof.
  intros accepted Hlen msgs Hrun Hpc.
  assert (Logger.coherent msgs s) as Hc
    by (eapply coherent_rtc; [apply coherent_init|done]).
  rewrite (coherent_exit msgs s Hc Hpc). unfold msgs.
  destruct (register_loop_issued Sprintf_user reqs 0 NewInMemoryUserRepo
              issued_fresh) as (-> & _); [fold accepted; lia|].
  fold accepted. by rewrite <- list_fmap_compose.
Qed.

Lemma main_logs_every_registration_witness :
  ∃ s, Logger.run [Logger.ThMain; Logger.ThLogger; Logger.ThMain;
                   Logger.ThMain; Logger.ThMain; Logger.ThLogger;
                   Logger.ThLogger; Logger.ThLogger; Logger.ThMain]
         (Logger.init
            (sent_messages
               (register_loop Name mixed_requests NewInMemoryUserRepo).2))
         = Some s ∧
       Logger.output s = ["ASYNC LOG: Gaurav"; "ASYNC LOG: Amit"].
Proof.
  eexists. split; [vm_compute; reflexivity|].
  rewrite (main_logs_every_registration Name mixed_requests).
  - reflexivity.
  - vm_compute. discriminate.
  - apply (run_rtc [Logger.ThMain; Logger.ThLogger; Logger.ThMain;
                    Logger.ThMain; Logger.ThMain; Logger.ThLogger;
                    Logger.ThLogger; Logger.ThLogger; Logger.ThMain]).
    vm_compute. reflexivity.
  - reflexivity.
Defined.
